(** * The streaming-hash file-analysis action (src/file_analysis/Hash.cc)

    A shallow embedding of [file_analysis::Hash]: the constructor, the three
    notification callbacks [DeliverStream], [Undelivered], [EndOfFile] and the
    private [Finalize].  The hash primitive ([HashVal]) and the results record
    are collaborators that the file only uses through calls; they appear here
    as an interface and as a finite map, and every call that reaches them is
    recorded in a call log so that "is never called" and "is called once" can
    be stated. *)

From Stdlib Require Import ZArith Strings.Byte Strings.Ascii.
From stdpp Require Import gmap strings list.

(** ** Data of the collaborators *)

(** [const u_char* data] is the buffer the pointer designates and
    [StringVal] the digest string a hash hands out.  A [uint64] is an integer
    in [0, 2^64); the file only compares it with zero, so it is a [Z] here
    and the properties below hold for every [Z]. *)
Definition bytes : Type := list Byte.byte.
Definition uint64 : Type := Z.
Definition StringVal : Type := string.

(** The bytes [data[0..len)] of a delivered chunk. *)
Definition chunk_bytes (data : bytes) (len : uint64) : bytes :=
  take (Z.to_nat len) data.

(** The operations [Hash.cc] calls on its [HashVal* hash].  [IsValid] is a
    [const] query; [Init], [Feed] and [Get] may change the object, and the
    source ignores whatever [Init] and [Feed] return. *)
Class HashVal (HV : Type) : Type := {
  Init : HV → HV;
  IsValid : HV → bool;
  Feed : bytes → uint64 → HV → HV;
  Get : HV → StringVal * HV
}.

(** Modelled from the spec: the spec calls the hash state an incremental
    digest primitive and a digest the output of the algorithm over the
    consumed bytes.  As laws on a [HashVal]: a valid state
    stands for the bytes absorbed so far, [Init] starts from none, [Feed]
    appends [data[0..len)], and [Get] returns the digest of what was
    absorbed. *)
Class HashValSpec (HV : Type) `{HashVal HV} : Type := {
  Digest : bytes → StringVal;
  Absorbed : HV → bytes → Prop;
  Init_spec : ∀ hv, IsValid (Init hv) = true → Absorbed (Init hv) [];
  Feed_spec : ∀ hv bs data len,
    IsValid hv = true → Absorbed hv bs →
    Absorbed (Feed data len hv) (bs ++ chunk_bytes data len);
  Get_spec : ∀ hv bs,
    IsValid hv = true → Absorbed hv bs → (Get hv).1 = Digest bs
}.

(** Modelled from the spec: [RecordType::FieldOffset] is not part of the
    file; the spec has the constructor resolve the field name against the
    results schema, and the source treats a negative offset as "absent".  The
    schema is the list of its field names, the offset of a name is the
    position of its first occurrence, and [-1] is returned when there is
    none. *)
Fixpoint FieldOffset_from (i : Z) (types : list string) (field : string) : Z :=
  match types with
  | [] => (-1)%Z
  | id :: rest =>
      if String.eqb id field then i
      else FieldOffset_from (i + 1)%Z rest field
  end.

Definition FieldOffset (types : list string) (field : string) : Z :=
  FieldOffset_from 0%Z types field.

(** Calls that leave the action: the mutating calls on the hash object and
    the assignment into the results record. *)
Inductive Call : Type :=
| CallInit
| CallFeed (data : bytes) (len : uint64)
| CallGet
| CallAssign (idx : Z) (v : StringVal).

(** Modelled from the spec: the reporter is not part of the file; the spec
    has a missing field reported as a fatal, non-recoverable error at
    construction (its [ConfigurationError]).  [reporter->InternalError] does
    not return: construction stops with the message. *)
Inductive Fatal : Type :=
| InternalError (msg : string).

(** The notifications a dispatcher sends to an action. *)
Inductive Notification : Type :=
| NDeliverStream (data : bytes) (len : uint64)
| NUndelivered (offset len : uint64)
| NEndOfFile.

Definition is_assign (c : Call) : bool :=
  match c with CallAssign _ _ => true | _ => false end.

Definition is_feed (c : Call) : bool :=
  match c with CallFeed _ _ => true | _ => false end.

Definition is_eof (n : Notification) : bool :=
  match n with NEndOfFile => true | _ => false end.

(** The sub-log of one kind of call, in call order. *)
Definition assigns (l : list Call) : list Call := List.filter is_assign l.
Definition feeds (l : list Call) : list Call := List.filter is_feed l.

Section HashAction.

Context {HV : Type} `{HashVal HV}.

(** [BifType::Record::FileAnalysis::ActionResults], the schema of the results
    record, by field name. *)
Variable ActionResults : list string.

(** ** State *)

(** The members of a [Hash] object.  The hash object is owned by the action
    (it is released in the destructor), so it is kept by value. *)
Record Hash : Type := mkHash {
  hash : HV;
  fed : bool;
  result_field_idx : Z
}.

(** What the action shares with its host: the record returned by
    [info->GetResults(args)], by field offset, and the call log. *)
Record Env : Type := mkEnv {
  results : gmap Z StringVal;
  calls : list Call
}.

Record World : Type := mkWorld {
  this : Hash;
  env : Env
}.

(** ** A state monad over the world *)

Definition M (A : Type) : Type := World → A * World.

Definition ret {A} (a : A) : M A := λ w, (a, w).

Definition bind {A B} (m : M A) (k : A → M B) : M B :=
  λ w, let '(a, w') := m w in k a w'.

Notation "'do' x <- m ; k" := (bind m (λ x, k))
  (at level 10, x name, m at level 100, k at level 200).
Notation "'do' 'tt' <- m ; k" := (bind m (λ _ : unit, k))
  (at level 10, m at level 100, k at level 200).

Definition log (c : Call) : M unit :=
  λ w, (tt, mkWorld (this w) (mkEnv (results (env w)) (calls (env w) ++ [c]))).

Definition get_fed : M bool := λ w, (fed (this w), w).

Definition set_fed (b : bool) : M unit :=
  λ w, (tt, mkWorld (mkHash (hash (this w)) b (result_field_idx (this w))) (env w)).

Definition set_hash (hv : HV) : M unit :=
  λ w, (tt, mkWorld (mkHash hv (fed (this w)) (result_field_idx (this w))) (env w)).

(** [hash->IsValid()] *)
Definition hash_IsValid : M bool := λ w, (IsValid (hash (this w)), w).

(** [hash->Feed(data, len)] *)
Definition hash_Feed (data : bytes) (len : uint64) : M unit :=
  λ w, bind (log (CallFeed data len))
            (λ _, set_hash (Feed data len (hash (this w)))) w.

(** [hash->Get()] *)
Definition hash_Get : M StringVal :=
  λ w, let '(sv, hv) := Get (hash (this w)) in
       bind (log CallGet) (λ _, bind (set_hash hv) (λ _, ret sv)) w.

(** Modelled from the spec: [RecordVal::Assign] is not part of the file; the
    spec has the results record map a field to a value, and an assignment
    sets the value of that one field.
    [info->GetResults(args)->Assign(result_field_idx, sv)] *)
Definition results_Assign (sv : StringVal) : M unit :=
  λ w, let idx := result_field_idx (this w) in
       bind (log (CallAssign idx sv))
            (λ _ w', (tt, mkWorld (this w')
                            (mkEnv (<[idx := sv]> (results (env w')))
                                   (calls (env w'))))) w.

(** ** The methods of [Hash] *)

(** [Hash::Hash(args, info, hv, field)]: the member initialisers set [hash]
    and [fed]; the body resolves the field, aborts when it is missing, and
    only then calls [hash->Init()]. *)
Definition Hash_new (hv : HV) (field : string) (e : Env) : (Fatal + Hash) * Env :=
  let idx := FieldOffset ActionResults field in
  if (idx <? 0)%Z then
    (inl (InternalError ("Missing ActionResults field: " +:+ field)), e)
  else
    (inr (mkHash (Init hv) false idx),
     mkEnv (results e) (calls e ++ [CallInit])).

Definition DeliverStream (data : bytes) (len : uint64) : M bool :=
  do valid <- hash_IsValid;
  if negb valid then ret false
  else
    do f <- get_fed;
    do tt <- (if negb f then set_fed (0 <? len)%Z else ret tt);
    do tt <- hash_Feed data len;
    ret true.

Definition Finalize : M unit :=
  do valid <- hash_IsValid;
  do f <- get_fed;
  if negb valid || negb f then ret tt
  else
    do sv <- hash_Get;
    results_Assign sv.

Definition EndOfFile : M bool :=
  do tt <- Finalize;
  ret false.

Definition Undelivered (offset len : uint64) : M bool :=
  ret false.

(** ** Runs *)

Definition notify (n : Notification) : M bool :=
  match n with
  | NDeliverStream data len => DeliverStream data len
  | NUndelivered offset len => Undelivered offset len
  | NEndOfFile => EndOfFile
  end.

(** The replies to a sequence of notifications and the world they leave. *)
Fixpoint run (ns : list Notification) : M (list bool) :=
  match ns with
  | [] => ret []
  | n :: rest =>
      do r <- notify n;
      do rs <- run rest;
      ret (r :: rs)
  end.

End HashAction.

Arguments Hash : clear implicits.
Arguments World : clear implicits.
Arguments M : clear implicits.

(** ** A reference hash primitive *)

(** Modelled from the spec: the [HashVal] class is not part of the file; the
    spec describes the hash state as an incremental digest primitive with
    [Init], [Feed(bytes)], [IsValid() → bool] and [Get() → digest value].
    This instance is a 32-bit rolling checksum printed as eight hex digits:
    [Init] makes the state valid and empties it, [Feed] absorbs
    [data[0..len)] when the state is valid, and [Get] reads the digest and
    leaves the state as it is. *)
Module RefHash.

Record t : Type := mk { valid : bool; acc : Z }.

Definition absorb (a : Z) (b : Byte.byte) : Z :=
  ((a * 31 + Z.of_N (Byte.to_N b)) mod 2 ^ 32)%Z.

Definition absorb_all (bs : bytes) (a : Z) : Z := fold_left absorb bs a.

Definition hex_digit (n : Z) : ascii :=
  default "0"%char (String.get (Z.to_nat n) "0123456789abcdef").

Definition hex32 (z : Z) : string :=
  fold_right (λ s rest, String (hex_digit (Z.land (Z.shiftr z s) 15)) rest)
             EmptyString [28; 24; 20; 16; 12; 8; 4; 0]%Z.

Definition digest (bs : bytes) : StringVal := hex32 (absorb_all bs 0).

#[global] Instance hashval : HashVal t := {
  Init _ := mk true 0;
  IsValid h := valid h;
  Feed data len h :=
    if valid h then mk true (absorb_all (chunk_bytes data len) (acc h)) else h;
  Get h := (hex32 (acc h), h)
}.

(** A state that was never initialised. *)
Definition blank : t := mk false 0.

(** A state stands for the bytes whose checksum it holds. *)
Definition absorbed (h : t) (bs : bytes) : Prop := acc h = absorb_all bs 0.

Lemma Init_absorbed (hv : t) :
  IsValid (Init hv) = true → absorbed (Init hv) [].
Proof. reflexivity. Qed.

Lemma Feed_absorbed (hv : t) (bs data : bytes) (len : uint64) :
  IsValid hv = true → absorbed hv bs →
  absorbed (Feed data len hv) (bs ++ chunk_bytes data len).
Proof.
  unfold absorbed, absorb_all. cbn. intros -> ->. cbn.
  by rewrite fold_left_app.
Qed.

Lemma Get_absorbed (hv : t) (bs : bytes) :
  IsValid hv = true → absorbed hv bs → (Get hv).1 = digest bs.
Proof. unfold absorbed, digest. cbn. by intros _ ->. Qed.

#[global] Instance hashval_spec : HashValSpec t := {
  Digest := digest;
  Absorbed := absorbed;
  Init_spec := Init_absorbed;
  Feed_spec := Feed_absorbed;
  Get_spec := Get_absorbed
}.

End RefHash.

(** The chunk [s] with its length, as a dispatcher hands it over. *)
Definition chunk_of (s : string) : bytes * uint64 :=
  (String.list_byte_of_string s, Z.of_nat (String.length s)).

Definition deliver (c : bytes * uint64) : Notification :=
  NDeliverStream c.1 c.2.

(** A results schema and worlds over the reference hash, for the scenarios. *)
Definition schema : list string := ["md5"; "sha1"; "sha256"].

Definition no_results : Env := mkEnv ∅ [].

(** The world right after [Hash_new schema RefHash.blank "sha1" no_results]. *)
Definition fresh : World RefHash.t :=
  mkWorld (mkHash (RefHash.mk true 0) false 1%Z) (mkEnv ∅ [CallInit]).

(** A world whose hash state reports invalid after bytes were fed. *)
Definition broken : World RefHash.t :=
  mkWorld (mkHash (RefHash.mk false 120) true 1%Z)
          (mkEnv ∅ [CallInit; CallFeed (String.list_byte_of_string "x") 1%Z]).

(** ** Reading a run off its log and its replies *)

Definition is_get (c : Call) : bool :=
  match c with CallGet => true | _ => false end.

Definition is_init (c : Call) : bool :=
  match c with CallInit => true | _ => false end.

(** The calls a sequence of notifications adds to the log. *)
Definition emitted {HV : Type} `{HashVal HV}
    (ns : list Notification) (w : World HV) : list Call :=
  drop (length (calls (env w))) (calls (env (run ns w).2)).

(** The calls one notification makes in a given world, path by path. *)
Definition step_calls {HV : Type} `{HashVal HV}
    (n : Notification) (w : World HV) : list Call :=
  match n with
  | NDeliverStream data len =>
      if IsValid (hash (this w)) then [CallFeed data len] else []
  | NUndelivered _ _ => []
  | NEndOfFile =>
      if IsValid (hash (this w)) && fed (this w)
      then [CallGet;
            CallAssign (result_field_idx (this w)) (Get (hash (this w))).1]
      else []
  end.

(** The shape of what an action may emit: single [Feed]s, and [Get]s each
    followed at once by an [Assign] at offset [idx]. *)
Inductive action_trace (idx : Z) : list Call → Prop :=
| trace_nil : action_trace idx []
| trace_feed data len t :
    action_trace idx t → action_trace idx (CallFeed data len :: t)
| trace_publish v t :
    action_trace idx t → action_trace idx (CallGet :: CallAssign idx v :: t).

(** The chunks of [ns] that were answered [true], as the [Feed] calls they
    stand for. *)
Fixpoint accepted (ns : list Notification) (rs : list bool) : list Call :=
  match ns, rs with
  | NDeliverStream data len :: ns', true :: rs' =>
      CallFeed data len :: accepted ns' rs'
  | _ :: ns', _ :: rs' => accepted ns' rs'
  | _, _ => []
  end.

Definition fed_bytes (c : Call) : bool :=
  match c with CallFeed _ len => (0 <? len)%Z | _ => false end.

(** The bytes a notification carries: [data[0..len)] for a chunk, none for
    a gap or the end of the stream. *)
Definition payload (n : Notification) : bytes :=
  match n with
  | NDeliverStream data len => chunk_bytes data len
  | _ => []
  end.

(** A variant of the reference hash that can be read once: [Get] hands out
    the digest and leaves the state invalid.  It instantiates the [HashVal]
    interface for properties that depend on what [Get] does to the state. *)
Module OneShotHash.

Record t : Type := mk { valid : bool; acc : Z }.

#[global] Instance hashval : HashVal t := {
  Init _ := mk true 0;
  IsValid h := valid h;
  Feed data len h :=
    if valid h
    then mk true (RefHash.absorb_all (chunk_bytes data len) (acc h))
    else h;
  Get h := (RefHash.hex32 (acc h), mk false (acc h))
}.

End OneShotHash.

(** The world right after [Hash_new schema (OneShotHash.mk false 0) "md5"]. *)
Definition fresh_one_shot : World OneShotHash.t :=
  mkWorld (mkHash (OneShotHash.mk true 0) false 0%Z) (mkEnv ∅ [CallInit]).

(** A world with a value in another field of the results record. *)
Definition fresh_beside : World RefHash.t :=
  mkWorld (this fresh) (mkEnv {[0%Z := "d41d8cd9"]} [CallInit]).

(** * Properties *)

Section HashActionProps.

Context {HV : Type} `{HashVal HV}.

Variable ActionResults : list string.

Implicit Types (w : World HV) (ns : list Notification) (n : Notification).

(** ** The methods, one equation per path *)

Lemma DeliverStream_invalid data len w :
  IsValid (hash (this w)) = false → DeliverStream data len w = (false, w).
Proof.
  intros Hinv. unfold DeliverStream, bind, hash_IsValid. by rewrite Hinv.
Qed.

Lemma DeliverStream_valid data len w :
  IsValid (hash (this w)) = true →
  DeliverStream data len w =
    (true,
     mkWorld (mkHash (Feed data len (hash (this w)))
                     (fed (this w) || (0 <? len)%Z)
                     (result_field_idx (this w)))
             (mkEnv (results (env w)) (calls (env w) ++ [CallFeed data len]))).
Proof.
  intros Hv. unfold DeliverStream, bind, hash_IsValid, get_fed. rewrite Hv.
  destruct w as [[hv [|] idx] [res cs]]; reflexivity.
Qed.

Lemma Finalize_skip w :
  IsValid (hash (this w)) = false ∨ fed (this w) = false →
  Finalize w = (tt, w).
Proof.
  intros Hskip. unfold Finalize, bind, hash_IsValid, get_fed.
  destruct Hskip as [-> | ->]; [reflexivity |].
  by rewrite orb_true_r.
Qed.

Lemma Finalize_publish w :
  IsValid (hash (this w)) = true → fed (this w) = true →
  Finalize w =
    (tt,
     mkWorld (mkHash (Get (hash (this w))).2 true (result_field_idx (this w)))
             (mkEnv (<[result_field_idx (this w) := (Get (hash (this w))).1]>
                       (results (env w)))
                    (calls (env w) ++
                       [CallGet;
                        CallAssign (result_field_idx (this w))
                                   (Get (hash (this w))).1]))).
Proof.
  intros Hv Hfed. unfold Finalize, bind, hash_IsValid, get_fed.
  rewrite Hv, Hfed. cbn [negb orb]. unfold hash_Get, results_Assign, bind.
  destruct w as [[hv f idx] [res cs]]; cbn in *.
  destruct (Get hv) as [sv hv'] eqn:Hget; cbn. subst f.
  by rewrite <- (assoc_L (++)).
Qed.

Lemma EndOfFile_unfold w : EndOfFile w = (false, (Finalize w).2).
Proof. unfold EndOfFile, bind, ret. by destruct (Finalize w) as [[] w']. Qed.

Lemma run_cons n ns w :
  run (n :: ns) w =
    ((notify n w).1 :: (run ns (notify n w).2).1, (run ns (notify n w).2).2).
Proof.
  cbn [run]. unfold bind, ret.
  destruct (notify n w) as [r w1]; cbn.
  by destruct (run ns w1) as [rs w2].
Qed.

Lemma run_app ns1 ns2 w :
  (run (ns1 ++ ns2) w).2 = (run ns2 (run ns1 w).2).2.
Proof.
  revert w; induction ns1 as [|n ns1 IH]; intros w; [reflexivity |].
  cbn [app]. rewrite !run_cons. cbn. apply IH.
Qed.

(** An invalid hash freezes the action: no notification changes anything. *)
Lemma notify_invalid n w :
  IsValid (hash (this w)) = false → notify n w = (false, w).
Proof.
  intros Hinv. destruct n as [data len | offset len |]; cbn [notify].
  - by apply DeliverStream_invalid.
  - reflexivity.
  - rewrite EndOfFile_unfold, Finalize_skip; auto.
Qed.

Lemma run_invalid ns w :
  IsValid (hash (this w)) = false →
  run ns w = (replicate (length ns) false, w).
Proof.
  intros Hinv. induction ns as [|n ns IH]; [reflexivity |].
  rewrite run_cons, notify_invalid by done. cbn. by rewrite IH.
Qed.

(** What a notification adds to the log of assignments. *)
Lemma notify_assigns n w :
  assigns (calls (env (notify n w).2)) =
    assigns (calls (env w)) ++
      (if is_eof n && IsValid (hash (this w)) && fed (this w)
       then [CallAssign (result_field_idx (this w)) (Get (hash (this w))).1]
       else []).
Proof.
  unfold assigns.
  destruct n as [data len | offset len |]; cbn [notify is_eof andb].
  - destruct (IsValid (hash (this w))) eqn:Hv.
    + rewrite DeliverStream_valid by done. cbn.
      by rewrite List.filter_app.
    + rewrite DeliverStream_invalid by done. cbn. by rewrite app_nil_r.
  - cbn. by rewrite app_nil_r.
  - rewrite EndOfFile_unfold. cbn [snd].
    destruct (IsValid (hash (this w))) eqn:Hv;
      destruct (fed (this w)) eqn:Hfed; cbn [andb].
    + rewrite Finalize_publish by done. cbn. by rewrite List.filter_app.
    + rewrite Finalize_skip by auto. cbn. by rewrite app_nil_r.
    + rewrite Finalize_skip by auto. cbn. by rewrite app_nil_r.
    + rewrite Finalize_skip by auto. cbn. by rewrite app_nil_r.
Qed.

Lemma notify_fed_mono n w :
  fed (this w) = true → fed (this (notify n w).2) = true.
Proof.
  intros Hfed. destruct n as [data len | offset len |]; cbn [notify].
  - destruct (IsValid (hash (this w))) eqn:Hv.
    + rewrite DeliverStream_valid by done. cbn. by rewrite Hfed.
    + by rewrite DeliverStream_invalid.
  - done.
  - rewrite EndOfFile_unfold. cbn [snd].
    destruct (IsValid (hash (this w))) eqn:Hv.
    + by rewrite Finalize_publish.
    + by rewrite Finalize_skip by auto.
Qed.

Lemma notify_idx n w :
  result_field_idx (this (notify n w).2) = result_field_idx (this w).
Proof.
  destruct n as [data len | offset len |]; cbn [notify].
  - destruct (IsValid (hash (this w))) eqn:Hv.
    + by rewrite DeliverStream_valid.
    + by rewrite DeliverStream_invalid.
  - done.
  - rewrite EndOfFile_unfold. cbn [snd].
    destruct (IsValid (hash (this w))) eqn:Hv;
      destruct (fed (this w)) eqn:Hfed.
    + by rewrite Finalize_publish.
    + by rewrite Finalize_skip by auto.
    + by rewrite Finalize_skip by auto.
    + by rewrite Finalize_skip by auto.
Qed.

Lemma notify_deliver (c : bytes * uint64) w :
  notify (deliver c) w = DeliverStream c.1 c.2 w.
Proof. reflexivity. Qed.

(** A notification with nothing in it for the flag leaves [fed], the results
    record and the assignments alone, whatever the hash says. *)
Lemma DeliverStream_zero data w :
  let w' := (DeliverStream data 0%Z w).2 in
  fed (this w') = fed (this w) ∧
  results (env w') = results (env w) ∧
  assigns (calls (env w')) = assigns (calls (env w)).
Proof.
  cbn zeta. destruct (IsValid (hash (this w))) eqn:Hv.
  - rewrite DeliverStream_valid by done. cbn. rewrite orb_false_r.
    unfold assigns. rewrite List.filter_app. cbn. by rewrite app_nil_r.
  - by rewrite DeliverStream_invalid.
Qed.

Lemma run_deliver_zero (chunks : list (bytes * uint64)) w :
  Forall (λ c, c.2 = 0%Z) chunks →
  let w' := (run (deliver <$> chunks) w).2 in
  fed (this w') = fed (this w) ∧
  results (env w') = results (env w) ∧
  assigns (calls (env w')) = assigns (calls (env w)).
Proof.
  intros Hz. revert w. induction Hz as [|[data len] chunks Hlen _ IH]; intros w.
  - done.
  - cbn in Hlen. subst len. cbn [fmap list_fmap]. rewrite run_cons. cbn [snd].
    rewrite notify_deliver. cbn [fst snd].
    destruct (IH (DeliverStream data 0%Z w).2) as (Hf & Hr & Ha).
    destruct (DeliverStream_zero data w) as (Hf0 & Hr0 & Ha0).
    cbn zeta in *. rewrite Hf, Hr, Ha. done.
Qed.

(** While the hash stays valid, every chunk is fed: replies are [true], the
    flag records whether some chunk was non-empty, and nothing is assigned. *)
Lemma run_deliver_frame (chunks : list (bytes * uint64)) w :
  (∀ k, k ≤ length chunks →
        IsValid (hash (this (run (deliver <$> take k chunks) w).2)) = true) →
  let w' := (run (deliver <$> chunks) w).2 in
  fed (this w') = fed (this w) || existsb (λ c, (0 <? c.2)%Z) chunks ∧
  result_field_idx (this w') = result_field_idx (this w) ∧
  results (env w') = results (env w) ∧
  assigns (calls (env w')) = assigns (calls (env w)) ∧
  feeds (calls (env w')) =
    feeds (calls (env w)) ++ ((λ c, CallFeed c.1 c.2) <$> chunks).
Proof.
  revert w. induction chunks as [|[data len] chunks IH]; intros w Hvalid.
  - cbn. rewrite orb_false_r, app_nil_r. done.
  - pose proof (Hvalid 0 ltac:(lia)) as Hv0. cbn in Hv0.
    cbn [fmap list_fmap]. rewrite run_cons. cbn [snd].
    rewrite notify_deliver. cbn [fst snd].
    rewrite DeliverStream_valid by done. cbn [snd].
    set (w1 := mkWorld _ _).
    destruct (IH w1) as (Hf & Hi & Hr & Ha & Hfe).
    { intros k Hk. specialize (Hvalid (S k) ltac:(cbn; lia)).
      cbn [take fmap list_fmap] in Hvalid. rewrite run_cons in Hvalid.
      cbn [snd] in Hvalid. rewrite notify_deliver in Hvalid.
      cbn [fst snd] in Hvalid.
      rewrite DeliverStream_valid in Hvalid by done. exact Hvalid. }
    cbn zeta in *. rewrite Hf, Hi, Hr, Ha, Hfe. subst w1. cbn.
    unfold assigns, feeds. rewrite !List.filter_app. cbn.
    rewrite app_nil_r, orb_assoc, <- (assoc_L (++)). done.
Qed.

Lemma run_deliver_absorbed `{!HashValSpec HV}
    (chunks : list (bytes * uint64)) w bs :
  (∀ k, k ≤ length chunks →
        IsValid (hash (this (run (deliver <$> take k chunks) w).2)) = true) →
  Absorbed (hash (this w)) bs →
  Absorbed (hash (this (run (deliver <$> chunks) w).2))
           (bs ++ concat ((λ c, chunk_bytes c.1 c.2) <$> chunks)).
Proof.
  revert w bs. induction chunks as [|[data len] chunks IH]; intros w bs Hvalid Habs.
  - cbn. by rewrite app_nil_r.
  - pose proof (Hvalid 0 ltac:(lia)) as Hv0. cbn in Hv0.
    cbn [fmap list_fmap concat]. rewrite run_cons. cbn [snd].
    rewrite notify_deliver. cbn [fst snd].
    rewrite DeliverStream_valid by done. cbn [snd].
    rewrite (assoc_L (++)). apply IH.
    + intros k Hk. specialize (Hvalid (S k) ltac:(cbn; lia)).
      cbn [take fmap list_fmap] in Hvalid. rewrite run_cons in Hvalid.
      cbn [snd] in Hvalid. rewrite notify_deliver in Hvalid.
      cbn [fst snd] in Hvalid.
      rewrite DeliverStream_valid in Hvalid by done. exact Hvalid.
    + cbn. by apply Feed_spec.
Qed.

(** The offset of a field of the schema. *)
Lemma FieldOffset_from_absent i (types : list string) field :
  field ∉ types → FieldOffset_from i types field = (-1)%Z.
Proof.
  revert i. induction types as [|id types IH]; intros i Hn; [done |].
  cbn. destruct (String.eqb_spec id field) as [-> | Hne].
  - exfalso. apply Hn. left.
  - apply IH. intros Hin. apply Hn. by right.
Qed.

Lemma FieldOffset_from_present i (types : list string) field :
  field ∈ types →
  (i ≤ FieldOffset_from i types field)%Z ∧
  types !! Z.to_nat (FieldOffset_from i types field - i) = Some field.
Proof.
  revert i. induction types as [|id types IH]; intros i Hin.
  - by apply elem_of_nil in Hin.
  - cbn. destruct (String.eqb_spec id field) as [-> | Hne].
    + split; [lia |]. by rewrite Z.sub_diag.
    + apply elem_of_cons in Hin as [-> | Hin]; [done |].
      destruct (IH (i + 1)%Z Hin) as [Hle Hlk]. split; [lia |].
      replace (Z.to_nat (FieldOffset_from (i + 1) types field - i))
        with (S (Z.to_nat (FieldOffset_from (i + 1) types field - (i + 1))))
        by lia.
      exact Hlk.
Qed.

(** With a hash primitive whose [Get] leaves the state invalid, the first
    assignment freezes the action, so a run assigns at most once. *)
Lemma one_shot_assigns_at_most_once :
  (∀ hv : HV, IsValid (Get hv).2 = false) →
  ∀ ns w,
    length (assigns (calls (env (run ns w).2))) ≤
      S (length (assigns (calls (env w)))).
Proof.
  intros Hshot ns. induction ns as [|n ns IH]; intros w; [cbn; lia |].
  rewrite run_cons. cbn [snd].
  destruct (is_eof n && IsValid (hash (this w)) && fed (this w)) eqn:Hpub.
  - apply andb_prop in Hpub as [Hpub Hfed].
    apply andb_prop in Hpub as [Heof Hv].
    destruct n; try discriminate Heof.
    rewrite run_invalid.
    + cbn [snd]. rewrite notify_assigns. cbn [is_eof andb].
      rewrite Hv, Hfed, length_app. cbn. lia.
    + cbn [notify]. rewrite EndOfFile_unfold. cbn [snd].
      rewrite Finalize_publish by done. cbn. apply Hshot.
  - specialize (IH (notify n w).2).
    rewrite notify_assigns, Hpub, app_nil_r in IH. exact IH.
Qed.

(** ** The claims *)

(** C1.  A freshly constructed action that is delivered a non-empty sequence
    of non-empty chunks, its hash state valid at every delivery and at the
    end of the stream, assigns at [EndOfFile] exactly one value into the
    results record, at its field offset: the digest of the concatenation of
    the chunks in delivery order. *)
Theorem published_digest_of_concatenation `{!HashValSpec HV}
    (chunks : list (bytes * uint64)) (hv : HV) (field : string)
    (e e0 : Env) (h : Hash HV) :
  Hash_new ActionResults hv field e = (inr h, e0) →
  chunks ≠ [] →
  Forall (λ c, (0 < c.2)%Z) chunks →
  (∀ k, k ≤ length chunks →
        IsValid (hash (this (run (deliver <$> take k chunks)
                                 (mkWorld h e0)).2)) = true) →
  let w1 := (run (deliver <$> chunks) (mkWorld h e0)).2 in
  let w2 := (EndOfFile w1).2 in
  let d := Digest (concat ((λ c, chunk_bytes c.1 c.2) <$> chunks)) in
  results (env w2) = <[result_field_idx h := d]> (results e) ∧
  assigns (calls (env w2)) =
    assigns (calls e) ++ [CallAssign (result_field_idx h) d].
Proof.
  intros Hnew Hne Hpos Hvalid w1 w2 d.
  unfold Hash_new in Hnew.
  destruct (FieldOffset ActionResults field <? 0)%Z; [done |].
  injection Hnew as <- <-.
  set (h := mkHash _ _ _) in *. set (e0 := mkEnv _ _) in *.
  destruct (run_deliver_frame chunks (mkWorld h e0) Hvalid)
    as (Hfed & Hidx & Hres & Hasg & _).
  assert (Hv0 : IsValid (Init hv) = true) by exact (Hvalid 0 ltac:(lia)).
  pose proof (run_deliver_absorbed chunks (mkWorld h e0) [] Hvalid
                (Init_spec hv Hv0)) as Habs.
  assert (Hv1 : IsValid (hash (this w1)) = true).
  { specialize (Hvalid (length chunks) ltac:(lia)).
    by rewrite firstn_all in Hvalid. }
  assert (Hf1 : fed (this w1) = true).
  { subst w1. cbn zeta in Hfed. rewrite Hfed. cbn.
    destruct chunks as [|c chunks]; [done |].
    apply Forall_cons in Hpos as [Hc _]. cbn.
    apply Z.ltb_lt in Hc. by rewrite Hc. }
  subst w2. rewrite EndOfFile_unfold. cbn [snd].
  rewrite Finalize_publish by done. cbn.
  cbn zeta in Hidx, Hres, Hasg, Habs. fold w1 in Hidx, Hres, Hasg, Habs.
  rewrite (Get_spec _ _ Hv1 Habs). cbn [app]. fold d.
  rewrite Hidx, Hres. split; [done |].
  unfold assigns in *. rewrite List.filter_app, Hasg. cbn.
  subst e0. cbn. rewrite List.filter_app. cbn. by rewrite app_nil_r.
Qed.


(** C3.  With a field name that is not in the schema the constructor aborts
    with an internal error and leaves the environment as it found it: no
    call at all has reached the hash state.  With a field of the schema it
    yields an instance holding the field's offset, [fed = false] and the
    hash state after its one [Init]. *)
Theorem Hash_new_resolves_field (hv : HV) (field : string) (e : Env) :
  (field ∉ ActionResults →
   ∃ msg, Hash_new ActionResults hv field e = (inl (InternalError msg), e)) ∧
  (field ∈ ActionResults →
   ∃ idx, (0 ≤ idx)%Z ∧ ActionResults !! Z.to_nat idx = Some field ∧
          Hash_new ActionResults hv field e =
            (inr (mkHash (Init hv) false idx),
             mkEnv (results e) (calls e ++ [CallInit]))).
Proof.
  unfold Hash_new, FieldOffset. split.
  - intros Habs. rewrite (FieldOffset_from_absent 0 _ _ Habs). cbn. eauto.
  - intros Hin. destruct (FieldOffset_from_present 0 _ _ Hin) as [Hle Hlk].
    exists (FieldOffset_from 0 ActionResults field).
    rewrite Z.sub_0_r in Hlk. split; [done |]. split; [done |].
    destruct (Z.ltb_spec (FieldOffset_from 0 ActionResults field) 0); [lia |].
    done.
Qed.

(** C4.  From a world whose hash state is invalid, every sequence of
    notifications is answered [false] throughout and leaves the world as it
    was: nothing more is fed and nothing is assigned. *)
Theorem invalid_hash_freezes ns w :
  IsValid (hash (this w)) = false →
  (run ns w).1 = replicate (length ns) false ∧
  (run ns w).2 = w ∧
  feeds (calls (env (run ns w).2)) = feeds (calls (env w)) ∧
  assigns (calls (env (run ns w).2)) = assigns (calls (env w)).
Proof. intros Hinv. by rewrite run_invalid. Qed.

(** C5.  When [fed] is unset and every delivered chunk (there may be none)
    has length zero, then after the chunks and [EndOfFile] the flag is still
    unset, the results record is the same and nothing was assigned. *)
Theorem no_bytes_no_assign (chunks : list (bytes * uint64)) w :
  fed (this w) = false →
  Forall (λ c, c.2 = 0%Z) chunks →
  let w' := (run ((deliver <$> chunks) ++ [NEndOfFile]) w).2 in
  fed (this w') = false ∧
  results (env w') = results (env w) ∧
  assigns (calls (env w')) = assigns (calls (env w)).
Proof.
  intros Hfed Hz w'. subst w'. rewrite run_app.
  destruct (run_deliver_zero chunks w Hz) as (Hf & Hr & Ha). cbn zeta in *.
  rewrite run_cons. cbn [run ret snd notify].
  rewrite EndOfFile_unfold. cbn [snd].
  rewrite Finalize_skip by (right; congruence).
  cbn [snd]. rewrite Hf, Hr, Ha. done.
Qed.

(** C6.  [EndOfFile] on a world whose hash is valid and whose [fed] is set
    calls [Get] and assigns the digest at the field offset.  It leaves [fed]
    and the offset as they were, so when the hash state is still valid
    afterwards a second [EndOfFile] assigns again: nothing in the instance
    remembers that it was finalized. *)
Theorem EndOfFile_assigns_whenever_valid_and_fed w :
  IsValid (hash (this w)) = true →
  fed (this w) = true →
  let idx := result_field_idx (this w) in
  let w1 := (EndOfFile w).2 in
  calls (env w1) =
    calls (env w) ++ [CallGet; CallAssign idx (Get (hash (this w))).1] ∧
  results (env w1) = <[idx := (Get (hash (this w))).1]> (results (env w)) ∧
  this w1 = mkHash (Get (hash (this w))).2 true idx ∧
  (IsValid (hash (this w1)) = true →
   calls (env (EndOfFile w1).2) =
     calls (env w) ++
       [CallGet; CallAssign idx (Get (hash (this w))).1;
        CallGet; CallAssign idx (Get (hash (this w1))).1]).
Proof.
  intros Hv Hfed idx w1. subst w1 idx. rewrite !EndOfFile_unfold. cbn [snd].
  rewrite (Finalize_publish w) by done. cbn [snd this env calls results].
  repeat split.
  intros Hv1. rewrite Finalize_publish by done. cbn.
  by rewrite <- (assoc_L (++)).
Qed.

(** C7.  [DeliverStream] on an invalid hash state returns [false] and leaves
    the world untouched: the hash state, [fed], the results record and the
    call log are what they were. *)
Theorem DeliverStream_invalid_declines (data : bytes) (len : uint64) w :
  IsValid (hash (this w)) = false →
  DeliverStream data len w = (false, w).
Proof. apply DeliverStream_invalid. Qed.

(** C8.  [Undelivered] returns [false] and leaves the world untouched, for
    every offset and length. *)
Theorem Undelivered_no_effect (offset len : uint64) w :
  Undelivered offset len w = (false, w).
Proof. reflexivity. Qed.

(** C9.  [EndOfFile] returns [false] in every world, and the world it leaves
    is the one [Finalize] leaves. *)
Theorem EndOfFile_finalizes_and_declines w :
  (EndOfFile w).1 = false ∧ (EndOfFile w).2 = (Finalize w).2.
Proof. by rewrite EndOfFile_unfold. Qed.

(** C10.  Once [fed] is set it stays set under every sequence of
    notifications. *)
Theorem fed_monotone ns w :
  fed (this w) = true → fed (this (run ns w).2) = true.
Proof.
  revert w. induction ns as [|n ns IH]; intros w Hfed; [done |].
  rewrite run_cons. cbn [snd]. by apply IH, notify_fed_mono.
Qed.

End HashActionProps.

(** * The claims on the reference hash *)

Section Scenarios.

Let abc : bytes := String.list_byte_of_string "abc".

(** The constructor yields [fresh]. *)
Example Hash_new_fresh :
  Hash_new schema RefHash.blank "sha1" no_results = (inr (this fresh), env fresh).
Proof. reflexivity. Qed.

(** Deliver ["abc"], then [EndOfFile]: the field holds the digest of
    ["abc"]. *)
Example scenario_abc :
  results (env (run [deliver (chunk_of "abc"); NEndOfFile] fresh).2) !! 1%Z
  = Some (RefHash.digest abc).
Proof. vm_compute. reflexivity. Qed.

(** [EndOfFile] with no delivery before it: nothing is published. *)
Example scenario_no_delivery :
  run [NEndOfFile] fresh = ([false], fresh).
Proof. reflexivity. Qed.

(** Deliver ["x"], the hash reports invalid, deliver ["y"], [EndOfFile]. *)
Example scenario_invalidated :
  run [deliver (chunk_of "y"); NEndOfFile] broken = ([false; false], broken).
Proof. reflexivity. Qed.

End Scenarios.

Lemma published_digest_of_concatenation_witness :
  let chunks := [chunk_of "ab"; chunk_of "c"] in
  let w2 := (EndOfFile (run (deliver <$> chunks) fresh).2).2 in
  let d := RefHash.digest (String.list_byte_of_string "abc") in
  results (env w2) = <[1%Z := d]> ∅ ∧
  assigns (calls (env w2)) = [CallAssign 1%Z d].
Proof.
  intros chunks.
  assert (Hvalid : ∀ k, k ≤ length chunks →
            IsValid (hash (this (run (deliver <$> take k chunks)
                                     (mkWorld (this fresh) (env fresh))).2))
            = true).
  { intros k Hk. destruct k as [|[|[|k]]]; [reflexivity .. |].
    cbn in Hk. lia. }
  assert (Hpos : Forall (λ c : bytes * uint64, (0 < c.2)%Z) chunks)
    by (repeat constructor).
  assert (Hne : chunks ≠ []) by discriminate.
  exact (published_digest_of_concatenation schema chunks RefHash.blank "sha1"
           no_results (env fresh) (this fresh) eq_refl Hne Hpos Hvalid).
Defined.

(** On the reference hash, whose [Get] leaves the state valid, a second
    [EndOfFile] assigns a second time. *)
Lemma two_EndOfFile_assign_twice :
  let ns := [deliver (chunk_of "a"); NEndOfFile; NEndOfFile] in
  Hash_new schema RefHash.blank "sha1" no_results = (inr (this fresh), env fresh) ∧
  assigns (calls (env (run ns fresh).2)) =
    [CallAssign 1%Z "00000061"; CallAssign 1%Z "00000061"] ∧
  ¬ (length (assigns (calls (env (run ns fresh).2))) ≤ 1).
Proof.
  cbn zeta. split; [reflexivity |]. split; [reflexivity |].
  vm_compute. lia.
Qed.

Lemma Hash_new_resolves_field_witness :
  (∃ msg, Hash_new schema RefHash.blank "Bogus" no_results
          = (inl (InternalError msg), no_results)) ∧
  (∃ idx, (0 ≤ idx)%Z ∧ schema !! Z.to_nat idx = Some "sha256" ∧
          Hash_new schema RefHash.blank "sha256" no_results =
            (inr (mkHash (Init RefHash.blank) false idx),
             mkEnv (results no_results) (calls no_results ++ [CallInit]))).
Proof.
  split.
  - apply (Hash_new_resolves_field schema RefHash.blank "Bogus" no_results).
    compute_done.
  - apply (Hash_new_resolves_field schema RefHash.blank "sha256" no_results).
    compute_done.
Defined.

Lemma invalid_hash_freezes_witness :
  let ns := [deliver (chunk_of "y"); NUndelivered 1%Z 4%Z; NEndOfFile;
             deliver (chunk_of "z"); NEndOfFile] in
  (run ns broken).1 = replicate (length ns) false ∧
  (run ns broken).2 = broken ∧
  feeds (calls (env (run ns broken).2)) = feeds (calls (env broken)) ∧
  assigns (calls (env (run ns broken).2)) = assigns (calls (env broken)).
Proof.
  intros ns. apply (invalid_hash_freezes ns broken). reflexivity.
Defined.

Lemma no_bytes_no_assign_witness :
  let chunks : list (bytes * uint64) := [chunk_of ""; chunk_of ""; chunk_of ""] in
  let w' := (run ((deliver <$> chunks) ++ [NEndOfFile]) fresh).2 in
  fed (this w') = false ∧
  results (env w') = results (env fresh) ∧
  assigns (calls (env w')) = assigns (calls (env fresh)).
Proof.
  intros chunks. apply (no_bytes_no_assign chunks fresh).
  - reflexivity.
  - repeat constructor.
Defined.

Lemma EndOfFile_assigns_whenever_valid_and_fed_witness :
  let w := (run [deliver (chunk_of "abc")] fresh).2 in
  let w1 := (EndOfFile w).2 in
  let d := RefHash.digest (String.list_byte_of_string "abc") in
  assigns (calls (env w1)) = [CallAssign 1%Z d] ∧
  assigns (calls (env (EndOfFile w1).2)) = [CallAssign 1%Z d; CallAssign 1%Z d].
Proof.
  intros w w1 d.
  assert (Hv : IsValid (hash (this w)) = true) by reflexivity.
  assert (Hfed : fed (this w) = true) by reflexivity.
  assert (Hv1 : IsValid (hash (this w1)) = true) by reflexivity.
  destruct (EndOfFile_assigns_whenever_valid_and_fed w Hv Hfed)
    as (Hfirst & _ & _ & Hsecond).
  split.
  - fold w1 in Hfirst. rewrite Hfirst. reflexivity.
  - fold w1 in Hsecond. rewrite (Hsecond Hv1). reflexivity.
Defined.

Lemma DeliverStream_invalid_declines_witness :
  DeliverStream (String.list_byte_of_string "y") 1%Z broken = (false, broken).
Proof.
  apply (DeliverStream_invalid_declines (String.list_byte_of_string "y") 1%Z broken).
  reflexivity.
Defined.

Lemma fed_monotone_witness :
  let ns := [deliver (chunk_of ""); NUndelivered 3%Z 2%Z; NEndOfFile;
             deliver (chunk_of "b"); NEndOfFile] in
  fed (this (run ns (run [deliver (chunk_of "a")] fresh).2).2) = true.
Proof.
  intros ns.
  apply (fed_monotone ns (run [deliver (chunk_of "a")] fresh).2).
  reflexivity.
Defined.

(** * Further properties of the callbacks *)

Section RunProps.

Context {HV : Type} `{HashVal HV}.

Implicit Types (w : World HV) (ns : list Notification) (n : Notification).

(** ** One notification *)

Lemma notify_calls n w :
  calls (env (notify n w).2) = calls (env w) ++ step_calls n w.
Proof.
  destruct n as [data len | offset len |]; cbn [notify step_calls].
  - destruct (IsValid (hash (this w))) eqn:Hv.
    + by rewrite DeliverStream_valid.
    + rewrite DeliverStream_invalid by done. cbn. by rewrite app_nil_r.
  - cbn. by rewrite app_nil_r.
  - rewrite EndOfFile_unfold. cbn [snd].
    destruct (IsValid (hash (this w))) eqn:Hv;
      destruct (fed (this w)) eqn:Hfed; cbn [andb].
    + by rewrite Finalize_publish.
    + rewrite Finalize_skip by auto. by rewrite app_nil_r.
    + rewrite Finalize_skip by auto. by rewrite app_nil_r.
    + rewrite Finalize_skip by auto. by rewrite app_nil_r.
Qed.

Lemma notify_reply n w :
  (notify n w).1 =
    match n with
    | NDeliverStream _ _ => IsValid (hash (this w))
    | _ => false
    end.
Proof.
  destruct n as [data len | offset len |]; cbn [notify].
  - destruct (IsValid (hash (this w))) eqn:Hv.
    + by rewrite DeliverStream_valid.
    + by rewrite DeliverStream_invalid.
  - done.
  - by rewrite EndOfFile_unfold.
Qed.

Lemma notify_fed n w :
  fed (this (notify n w).2) =
    fed (this w) || existsb fed_bytes (feeds (step_calls n w)).
Proof.
  destruct n as [data len | offset len |]; cbn [notify step_calls].
  - destruct (IsValid (hash (this w))) eqn:Hv.
    + rewrite DeliverStream_valid by done. cbn. by rewrite orb_false_r.
    + rewrite DeliverStream_invalid by done. cbn. by rewrite orb_false_r.
  - cbn. by rewrite orb_false_r.
  - rewrite EndOfFile_unfold. cbn [snd].
    destruct (IsValid (hash (this w))) eqn:Hv;
      destruct (fed (this w)) eqn:Hfed; cbn [andb].
    + by rewrite Finalize_publish.
    + rewrite Finalize_skip by auto. cbn. by rewrite Hfed.
    + rewrite Finalize_skip by auto. cbn. by rewrite Hfed.
    + rewrite Finalize_skip by auto. cbn. by rewrite Hfed.
Qed.

Lemma notify_results_other n w (j : Z) :
  j ≠ result_field_idx (this w) →
  results (env (notify n w).2) !! j = results (env w) !! j.
Proof.
  intros Hj. destruct n as [data len | offset len |]; cbn [notify].
  - destruct (IsValid (hash (this w))) eqn:Hv.
    + by rewrite DeliverStream_valid.
    + by rewrite DeliverStream_invalid.
  - done.
  - rewrite EndOfFile_unfold. cbn [snd].
    destruct (IsValid (hash (this w))) eqn:Hv;
      destruct (fed (this w)) eqn:Hfed.
    + rewrite Finalize_publish by done. cbn. by rewrite lookup_insert_ne.
    + by rewrite Finalize_skip by auto.
    + by rewrite Finalize_skip by auto.
    + by rewrite Finalize_skip by auto.
Qed.

Lemma notify_results_kept n w (j : Z) :
  is_Some (results (env w) !! j) →
  is_Some (results (env (notify n w).2) !! j).
Proof.
  intros Hj. destruct n as [data len | offset len |]; cbn [notify].
  - destruct (IsValid (hash (this w))) eqn:Hv.
    + by rewrite DeliverStream_valid.
    + by rewrite DeliverStream_invalid.
  - done.
  - rewrite EndOfFile_unfold. cbn [snd].
    destruct (IsValid (hash (this w))) eqn:Hv;
      destruct (fed (this w)) eqn:Hfed.
    + rewrite Finalize_publish by done. cbn.
      destruct (decide (result_field_idx (this w) = j)) as [-> | Hne].
      * rewrite lookup_insert_eq. eauto.
      * by rewrite lookup_insert_ne.
    + by rewrite Finalize_skip by auto.
    + by rewrite Finalize_skip by auto.
    + by rewrite Finalize_skip by auto.
Qed.

Lemma step_calls_trace n w :
  action_trace (result_field_idx (this w)) (step_calls n w).
Proof.
  destruct n as [data len | offset len |]; cbn [step_calls].
  - destruct (IsValid (hash (this w))); repeat constructor.
  - constructor.
  - destruct (IsValid (hash (this w)) && fed (this w)); repeat constructor.
Qed.

(** ** Runs *)

Lemma run_idx ns w :
  result_field_idx (this (run ns w).2) = result_field_idx (this w).
Proof.
  revert w. induction ns as [|n ns IH]; intros w; [done |].
  rewrite run_cons. cbn [snd]. by rewrite IH, notify_idx.
Qed.

Lemma run_calls ns w :
  calls (env (run ns w).2) = calls (env w) ++ emitted ns w.
Proof.
  assert (Hpre : ∃ new, calls (env (run ns w).2) = calls (env w) ++ new).
  { revert w. induction ns as [|n ns IH]; intros w.
    - exists []. cbn. by rewrite app_nil_r.
    - rewrite run_cons. cbn [snd].
      destruct (IH (notify n w).2) as [new Hnew].
      exists (step_calls n w ++ new).
      by rewrite Hnew, notify_calls, <- (assoc_L (++)). }
  destruct Hpre as [new Hnew]. unfold emitted.
  by rewrite Hnew, drop_app_length.
Qed.

Lemma emitted_nil w : emitted [] w = [].
Proof. unfold emitted. cbn. by rewrite drop_all. Qed.

Lemma emitted_cons n ns w :
  emitted (n :: ns) w = step_calls n w ++ emitted ns (notify n w).2.
Proof.
  unfold emitted at 1. rewrite run_cons. cbn [snd].
  rewrite run_calls, notify_calls, <- (assoc_L (++)).
  by rewrite drop_app_length.
Qed.

Lemma action_trace_app idx (t1 t2 : list Call) :
  action_trace idx t1 → action_trace idx t2 → action_trace idx (t1 ++ t2).
Proof. induction 1; cbn; intros; try constructor; auto. Qed.

Lemma emitted_trace ns w :
  action_trace (result_field_idx (this w)) (emitted ns w).
Proof.
  revert w. induction ns as [|n ns IH]; intros w.
  - rewrite emitted_nil. constructor.
  - rewrite emitted_cons. apply action_trace_app.
    + apply step_calls_trace.
    + rewrite <- (notify_idx n w). apply IH.
Qed.

Lemma action_trace_counts idx (t : list Call) :
  action_trace idx t →
  length (List.filter is_get t) = length (assigns t) ∧
  List.filter is_init t = [].
Proof. induction 1 as [| ? ? ? ? [? ?] | ? ? ? [? ?]]; cbn; auto. Qed.

Lemma run_replies_length ns w : length (run ns w).1 = length ns.
Proof.
  revert w. induction ns as [|n ns IH]; intros w; [done |].
  rewrite run_cons. cbn. by rewrite IH.
Qed.

(** ** Properties of runs *)

(** X1.  The action writes its own field only: the offset stored in the
    instance never changes, and every other field of the results record
    reads the same after any sequence of notifications. *)
Theorem results_frame ns w (j : Z) :
  j ≠ result_field_idx (this w) →
  results (env (run ns w).2) !! j = results (env w) !! j ∧
  result_field_idx (this (run ns w).2) = result_field_idx (this w).
Proof.
  intros Hj. split; [| apply run_idx].
  revert w Hj. induction ns as [|n ns IH]; intros w Hj; [done |].
  rewrite run_cons. cbn [snd]. rewrite IH.
  - by apply notify_results_other.
  - by rewrite notify_idx.
Qed.

(** X2.  The log only grows, and what a run adds to it is made of single
    [Feed] calls and of [Get] calls each followed at once by an [Assign] at
    the instance's field offset. *)
Theorem emitted_calls_shape ns w :
  calls (env (run ns w).2) = calls (env w) ++ emitted ns w ∧
  action_trace (result_field_idx (this w)) (emitted ns w).
Proof. split; [apply run_calls | apply emitted_trace]. Qed.

(** X3.  No notification ever calls [Init], and the digest is read with [Get]
    exactly as often as the field is assigned. *)
Theorem no_Init_and_one_Get_per_Assign ns w :
  List.filter is_init (emitted ns w) = [] ∧
  length (List.filter is_get (emitted ns w)) = length (assigns (emitted ns w)).
Proof.
  destruct (action_trace_counts _ _ (emitted_trace ns w)) as [Hget Hinit].
  done.
Qed.

(** X4.  The [Feed] calls of a run are exactly the chunks that were answered
    [true], in delivery order and with the data and length delivered: a
    declined chunk is never fed and an accepted one is fed once. *)
Theorem feeds_are_accepted_chunks ns w :
  feeds (emitted ns w) = accepted ns (run ns w).1.
Proof.
  revert w. induction ns as [|n ns IH]; intros w.
  - by rewrite emitted_nil.
  - rewrite emitted_cons, run_cons. cbn [fst]. unfold feeds in *.
    rewrite List.filter_app, IH, notify_reply.
    destruct n as [data len | offset len |]; cbn [step_calls accepted].
    + by destruct (IsValid (hash (this w))).
    + done.
    + by destruct (IsValid (hash (this w)) && fed (this w)).
Qed.

(** X5.  After a run [fed] is set exactly when it was set before or some
    accepted chunk had a positive length. *)
Theorem fed_after_run ns w :
  fed (this (run ns w).2) =
    fed (this w) || existsb fed_bytes (accepted ns (run ns w).1).
Proof.
  revert w. induction ns as [|n ns IH]; intros w.
  - cbn. by rewrite orb_false_r.
  - rewrite run_cons. cbn [fst snd]. rewrite IH, notify_fed, notify_reply.
    rewrite <- orb_assoc. f_equal.
    destruct n as [data len | offset len |]; cbn [step_calls accepted].
    + destruct (IsValid (hash (this w))); cbn; [| done].
      by rewrite orb_false_r.
    + done.
    + by destruct (IsValid (hash (this w)) && fed (this w)).
Qed.

(** X6.  Only [DeliverStream] is ever answered [true], and only when the hash
    state was valid when the chunk arrived. *)
Theorem only_DeliverStream_answered_true ns w (i : nat) n :
  ns !! i = Some n →
  (run ns w).1 !! i = Some true →
  (∃ data len, n = NDeliverStream data len) ∧
  IsValid (hash (this (run (take i ns) w).2)) = true.
Proof.
  revert w i. induction ns as [|m ns IH]; intros w i Hn Hr; [done |].
  rewrite run_cons in Hr. cbn [fst] in Hr. destruct i as [|i].
  - cbn in Hn, Hr. injection Hn as ->. injection Hr as Hr.
    rewrite notify_reply in Hr. cbn.
    destruct n as [data len | offset len |]; try discriminate Hr. eauto.
  - cbn in Hn, Hr. cbn [take]. rewrite run_cons. cbn [snd]. by apply IH.
Qed.

(** X7.  A declined chunk ends the action: once a [DeliverStream] is answered
    [false], every later notification is answered [false] and the world
    stays the one the declined chunk found. *)
Theorem declined_chunk_is_final ns w (i j : nat) data len (r : bool) :
  ns !! i = Some (NDeliverStream data len) →
  (run ns w).1 !! i = Some false →
  i ≤ j →
  (run ns w).1 !! j = Some r →
  r = false ∧ (run ns w).2 = (run (take i ns) w).2.
Proof.
  revert w i j. induction ns as [|m ns IH]; intros w i j Hn Hi Hij Hj; [done |].
  destruct i as [|i].
  - rewrite run_cons in Hi. cbn in Hi. injection Hi as Hi.
    rewrite notify_reply in Hi.
    cbn in Hn. injection Hn as ->.
    rewrite run_invalid in Hj |- * by done. cbn [fst snd take run ret] in *.
    apply lookup_replicate in Hj as [-> _]. done.
  - destruct j as [|j]; [lia |].
    rewrite run_cons in Hi, Hj |- *. cbn in Hn, Hi, Hj. cbn [snd take].
    rewrite run_cons. cbn [snd].
    apply (IH (notify m w).2 i j); [done | done | lia | done].
Qed.

(** X8.  A value in the results record is never removed: a field that holds
    a value before a run holds one after it. *)
Theorem results_never_erased ns w (j : Z) :
  is_Some (results (env w) !! j) →
  is_Some (results (env (run ns w).2) !! j).
Proof.
  revert w. induction ns as [|n ns IH]; intros w Hj; [done |].
  rewrite run_cons. cbn [snd]. by apply IH, notify_results_kept.
Qed.

(** X9.  Gaps and empty chunks do not show in the digest.  For a hash that
    is an incremental digest and has absorbed [bs]: after deliveries and
    gaps in any order, the hash valid at each of them and [fed] set at the
    end, [EndOfFile] stores the digest of [bs] followed by the delivered
    bytes in delivery order. *)
Theorem gaps_do_not_show_in_digest `{!HashValSpec HV} ns w (bs : bytes) :
  Forall (λ n, is_eof n = false) ns →
  (∀ k, k ≤ length ns →
        IsValid (hash (this (run (take k ns) w).2)) = true) →
  Absorbed (hash (this w)) bs →
  fed (this (run ns w).2) = true →
  results (env (EndOfFile (run ns w).2).2) =
    <[result_field_idx (this w) := Digest (bs ++ concat (payload <$> ns))]>
      (results (env w)).
Proof.
  intros Hne Hvalid Habs Hfed.
  assert (Hv1 : IsValid (hash (this (run ns w).2)) = true).
  { specialize (Hvalid (length ns) ltac:(lia)). by rewrite firstn_all in Hvalid. }
  rewrite EndOfFile_unfold. cbn [snd]. rewrite Finalize_publish by done.
  cbn [snd env results]. rewrite run_idx. clear Hfed.
  enough (Hrun : Absorbed (hash (this (run ns w).2))
                          (bs ++ concat (payload <$> ns)) ∧
                 results (env (run ns w).2) = results (env w)).
  { destruct Hrun as [Ha ->]. by rewrite (Get_spec _ _ Hv1 Ha). }
  clear Hv1. revert w bs Hvalid Habs.
  induction Hne as [|n ns Hn _ IH]; intros w bs Hvalid Habs.
  - cbn. by rewrite app_nil_r.
  - pose proof (Hvalid 0 ltac:(lia)) as Hv0. cbn in Hv0.
    assert (Hstep : Absorbed (hash (this (notify n w).2)) (bs ++ payload n) ∧
                    results (env (notify n w).2) = results (env w)).
    { destruct n as [data len | offset len |]; [| | done].
      - cbn [notify payload]. rewrite DeliverStream_valid by done. cbn.
        split; [by apply Feed_spec | done].
      - cbn. by rewrite app_nil_r. }
    destruct Hstep as [Ha Hr].
    cbn [fmap list_fmap concat]. rewrite run_cons. cbn [snd].
    rewrite (assoc_L (++)), <- Hr. apply IH; [| done].
    intros k Hk. specialize (Hvalid (S k) ltac:(cbn; lia)).
    cbn [take] in Hvalid. rewrite run_cons in Hvalid. exact Hvalid.
Qed.

(** X10.  With a hash primitive whose [Get] leaves the state invalid, a run
    assigns at most once, however many [EndOfFile]s it holds. *)
Theorem one_shot_publishes_at_most_once ns w :
  (∀ hv : HV, IsValid (Get hv).2 = false) →
  length (assigns (emitted ns w)) ≤ 1.
Proof.
  intros Hshot.
  pose proof (one_shot_assigns_at_most_once Hshot ns w) as Hle.
  rewrite run_calls in Hle. unfold assigns in *.
  rewrite List.filter_app, length_app in Hle. lia.
Qed.


End RunProps.

(** * The further properties on the reference hashes *)

Lemma results_frame_witness :
  let ns := [deliver (chunk_of "abc"); NEndOfFile] in
  results (env (run ns fresh_beside).2) !! 0%Z = Some "d41d8cd9" ∧
  result_field_idx (this (run ns fresh_beside).2) = 1%Z.
Proof.
  intros ns.
  assert (Hj : 0%Z ≠ result_field_idx (this fresh_beside)) by discriminate.
  exact (results_frame ns fresh_beside 0%Z Hj).
Defined.

Lemma only_DeliverStream_answered_true_witness :
  let ns := [NUndelivered 0%Z 3%Z; deliver (chunk_of "a"); NEndOfFile] in
  (∃ data len, deliver (chunk_of "a") = NDeliverStream data len) ∧
  IsValid (hash (this (run (take 1 ns) fresh).2)) = true.
Proof.
  intros ns.
  assert (Hn : ns !! 1 = Some (deliver (chunk_of "a"))) by reflexivity.
  assert (Hr : (run ns fresh).1 !! 1 = Some true) by reflexivity.
  exact (only_DeliverStream_answered_true ns fresh 1 _ Hn Hr).
Defined.

Lemma declined_chunk_is_final_witness :
  let ns := [deliver (chunk_of "y"); NUndelivered 1%Z 2%Z;
             deliver (chunk_of "z"); NEndOfFile] in
  false = false ∧ (run ns broken).2 = (run (take 0 ns) broken).2.
Proof.
  intros ns.
  assert (Hn : ns !! 0 = Some (NDeliverStream (String.list_byte_of_string "y") 1%Z))
    by reflexivity.
  assert (Hi : (run ns broken).1 !! 0 = Some false) by reflexivity.
  assert (Hj : (run ns broken).1 !! 2 = Some false) by reflexivity.
  assert (Hij : 0 ≤ 2) by lia.
  exact (declined_chunk_is_final ns broken 0 2 _ _ false Hn Hi Hij Hj).
Defined.

Lemma results_never_erased_witness :
  let ns := [deliver (chunk_of "abc"); NEndOfFile; NEndOfFile] in
  is_Some (results (env (run ns fresh_beside).2) !! 0%Z).
Proof.
  intros ns.
  assert (Hj : is_Some (results (env fresh_beside) !! 0%Z)) by (by eexists).
  exact (results_never_erased ns fresh_beside 0%Z Hj).
Defined.

Lemma gaps_do_not_show_in_digest_witness :
  let ns := [deliver (chunk_of "ab"); NUndelivered 2%Z 5%Z;
             deliver (chunk_of ""); deliver (chunk_of "c")] in
  results (env (EndOfFile (run ns fresh).2).2) =
    <[1%Z := RefHash.digest (String.list_byte_of_string "abc")]> ∅.
Proof.
  intros ns.
  assert (Hne : Forall (λ n, is_eof n = false) ns) by (repeat constructor).
  assert (Hvalid : ∀ k, k ≤ length ns →
            IsValid (hash (this (run (take k ns) fresh).2)) = true).
  { intros k Hk. destruct k as [|[|[|[|[|k]]]]]; [reflexivity .. |].
    cbn in Hk. lia. }
  assert (Habs : Absorbed (hash (this fresh)) []) by reflexivity.
  assert (Hfed : fed (this (run ns fresh).2) = true) by reflexivity.
  exact (gaps_do_not_show_in_digest ns fresh [] Hne Hvalid Habs Hfed).
Defined.

Lemma one_shot_publishes_at_most_once_witness :
  let ns := [deliver (chunk_of "a"); NEndOfFile;
             deliver (chunk_of "b"); NEndOfFile] in
  length (assigns (emitted ns fresh_one_shot)) ≤ 1.
Proof.
  intros ns.
  assert (Hshot : ∀ hv : OneShotHash.t, IsValid (Get hv).2 = false)
    by (intros hv; reflexivity).
  exact (one_shot_publishes_at_most_once ns fresh_one_shot Hshot).
Defined.

